(** * LocalConsensus: a shallow embedding of kudu/consensus/local_consensus.cc

    The single-node consensus engine.  Each public method is embedded as a
    function on an explicit engine state.  External collaborators (the
    Operation Log, the Transaction Factory, the ConsensusMetadata flush) are
    represented by the status they answer, passed in as an argument.  Every
    observable interaction (taking or releasing [lock_], reserving a log
    slot, handing a batch to AsyncAppend, submitting the config change,
    flushing the metadata) is recorded in an event trace, so that ordering
    properties can be read off the trace.

    A failed [CHECK]/[DCHECK] aborts the process; it is modelled as [None]
    (DCHECKs are taken with their debug-build meaning).

    [next_op_id_index_] is an [int64_t]; signed overflow is undefined in C++,
    so the counter and the sequence numbers are embedded as unbounded [Z]. *)

From Stdlib Require Import ZArith List Bool String Lia Sorting.Sorted.
Import ListNotations.
Open Scope Z_scope.

(** ** Data model (metadata.proto / consensus.proto) *)

Inductive Role := FOLLOWER | LEADER | LEARNER | NON_PARTICIPANT | CANDIDATE.

Record QuorumPeerPB := mkPeer {
  permanent_uuid : option string;
  role : Role
}.

Record QuorumPB := mkQuorum {
  peers : list QuorumPeerPB;
  seqno : Z;
  local : bool
}.

Record OpId := mkOpId { term : Z; index : Z }.

Record OperationPB := mkOp {
  op_id : option OpId;
  has_commit : bool;
  payload : nat
}.

(** Completion callbacks are identified by a name. *)
Definition Callback := nat.

Record ConsensusRound := mkRound {
  replicate_op : OperationPB;
  commit_op : option OperationPB;
  replicate_callback : Callback;
  commit_callback : option Callback
}.

Record ConsensusBootstrapInfo := mkBootInfo { last_id : OpId }.

Inductive ErrorCode := InvalidQuorum | NotSupported | IOError | OtherError (n : nat).

Inductive Status := OK | Error (c : ErrorCode).

(** The engine's lifecycle states, in the order of the C++ enum. *)
Inductive State := kInitializing | kConfiguring | kRunning.

Definition state_rank (s : State) : Z :=
  match s with kInitializing => 0 | kConfiguring => 1 | kRunning => 2 end.

Record LocalConsensus := mkEngine {
  peer_uuid_ : string;
  next_op_id_index_ : Z;
  state_ : State;
  committed_quorum : QuorumPB   (* cmeta_->pb().committed_quorum() *)
}.

(** Observable events. *)
Inductive Event :=
  | EvLock
  | EvUnlock
  | EvAssign (i : Z)                              (* cur_op_id->set_index(i) *)
  | EvReserve (batch : list OperationPB) (st : Status)   (* log_->Reserve *)
  | EvAppend (batch : list OperationPB) (cb : Callback)  (* log_->AsyncAppend *)
  | EvReleaseCommitCallback                       (* round->release_commit_callback *)
  | EvVerify (q : QuorumPB)                       (* VerifyQuorum(q) *)
  | EvSubmit (q : QuorumPB) (at_state : State)    (* txn_factory_->SubmitConsensusChangeConfig *)
  | EvFlush.                                      (* cmeta_->Flush() *)

Definition Trace := list Event.

(** ** Collaborators that are not in the source tree *)

(** Modelled from the spec: [VerifyQuorum] (quorum_util, not in src/).
    Structural validation: locality flag set, exactly one peer for the
    single-node engine, and each peer's required identity present.  A
    malformed quorum yields [InvalidQuorum]. *)
Definition VerifyQuorum (q : QuorumPB) : Status :=
  if negb (local q) then Error InvalidQuorum
  else if negb (Nat.eqb (List.length (peers q)) 1) then Error InvalidQuorum
  else if forallb (fun p => match permanent_uuid p with Some _ => true | None => false end)
                  (peers q)
       then OK else Error InvalidQuorum.

(** Modelled from the spec: [ConsensusRound::release_commit_callback]
    (consensus.cc, not in src/): moves the round's commit callback out to
    the caller, leaving the round's slot empty. *)
Definition release_commit_callback (r : ConsensusRound) : ConsensusRound * option Callback :=
  (mkRound (replicate_op r) (commit_op r) (replicate_callback r) None, commit_callback r).

(** [log::CreateBatchFromAllocatedOperations(&op, 1, &batch)] *)
Definition CreateBatchFromAllocatedOperations (op : OperationPB) : list OperationPB := [op].

(** Field setters on the records. *)
Definition set_op_term (t : Z) (op : OperationPB) : OperationPB :=
  let i := match op_id op with Some id => index id | None => 0 end in
  mkOp (Some (mkOpId t i)) (has_commit op) (payload op).

Definition set_op_index (i : Z) (op : OperationPB) : OperationPB :=
  let t := match op_id op with Some id => term id | None => 0 end in
  mkOp (Some (mkOpId t i)) (has_commit op) (payload op).

Definition with_replicate_op (r : ConsensusRound) (op : OperationPB) : ConsensusRound :=
  mkRound op (commit_op r) (replicate_callback r) (commit_callback r).

Definition set_next (e : LocalConsensus) (n : Z) : LocalConsensus :=
  mkEngine (peer_uuid_ e) n (state_ e) (committed_quorum e).

Definition set_state (e : LocalConsensus) (s : State) : LocalConsensus :=
  mkEngine (peer_uuid_ e) (next_op_id_index_ e) s (committed_quorum e).

Definition set_committed (e : LocalConsensus) (q : QuorumPB) : LocalConsensus :=
  mkEngine (peer_uuid_ e) (next_op_id_index_ e) (state_ e) q.

(** [new_quorum->mutable_peers(0)->set_role(r)]; index 0 of an empty peer
    list is out of range in the C++ (ruled out by VerifyQuorum before use);
    here it leaves the list unchanged. *)
Definition set_first_role (r : Role) (ps : list QuorumPeerPB) : list QuorumPeerPB :=
  match ps with
  | [] => []
  | p :: rest => mkPeer (permanent_uuid p) r :: rest
  end.

(** ** The engine's methods *)

Module Engine.

(** [LocalConsensus::Start].  [submit_st] is the status returned by
    [txn_factory_->SubmitConsensusChangeConfig].  The lock_guard taken at
    the top is held until the function returns. *)
Definition Start (e : LocalConsensus) (info : ConsensusBootstrapInfo) (submit_st : Status)
    : option (LocalConsensus * Trace * Status) :=
  match state_ e with
  | kInitializing =>                                   (* CHECK_EQ(state_, kInitializing) *)
    let initial_quorum := committed_quorum e in
    if negb (local initial_quorum) then None             (* CHECK(initial_quorum.local()) *)
    else
    match VerifyQuorum initial_quorum with
    | Error c => Some (e, [EvLock; EvVerify initial_quorum; EvUnlock], Error c)
    | OK =>
      let e1 := set_next e (index (last_id info) + 1) in
      let new_quorum := mkQuorum (set_first_role LEADER (peers initial_quorum))
                                 (seqno initial_quorum + 1) (local initial_quorum) in
      let e2 := set_state e1 kRunning in
      let tr := [EvLock; EvVerify initial_quorum; EvSubmit new_quorum (state_ e2); EvUnlock] in
      match submit_st with
      | Error c => Some (e2, tr, Error c)
      | OK => Some (e2, tr, OK)
      end
    end
  | _ => None
  end.

(** [LocalConsensus::Replicate].  [reserve_st] and [append_st] are the
    statuses answered by [log_->Reserve] and [log_->AsyncAppend]. *)
Definition Replicate (e : LocalConsensus) (r : ConsensusRound) (reserve_st append_st : Status)
    : option (LocalConsensus * ConsensusRound * Trace * Status) :=
  if state_rank (state_ e) <? state_rank kConfiguring then None   (* DCHECK_GE *)
  else
  let op0 := set_op_term 0 (replicate_op r) in
  (* under lock_ *)
  let i := next_op_id_index_ e in
  let op1 := set_op_index i op0 in
  let r1 := with_replicate_op r op1 in
  let e1 := set_next e (i + 1) in
  let entry_batch := CreateBatchFromAllocatedOperations op1 in
  match reserve_st with
  | Error c =>
    Some (e1, r1, [EvLock; EvAssign i; EvReserve entry_batch reserve_st; EvUnlock], Error c)
  | OK =>
    (* lock released at the end of the block *)
    let tr := [EvLock; EvAssign i; EvReserve entry_batch OK; EvUnlock;
               EvAppend entry_batch (replicate_callback r1)] in
    match append_st with
    | Error c => Some (e1, r1, tr, Error c)
    | OK => Some (e1, r1, tr, OK)
    end
  end.

(** [LocalConsensus::Commit].  A null [commit_clbk] dereferenced when
    handing it to AsyncAppend crashes; this is modelled as an abort. *)
Definition Commit (e : LocalConsensus) (r : ConsensusRound) (reserve_st append_st : Status)
    : option (LocalConsensus * ConsensusRound * Trace * Status) :=
  match commit_op r with
  | None => None                                       (* DCHECK_NOTNULL *)
  | Some commit_op =>
    if negb (has_commit commit_op) then None           (* DCHECK(has_commit()) *)
    else
    let '(r1, commit_clbk) := release_commit_callback r in
    let entry_batch := CreateBatchFromAllocatedOperations commit_op in
    match reserve_st with
    | Error c =>
      Some (e, r1, [EvReleaseCommitCallback; EvLock; EvReserve entry_batch reserve_st; EvUnlock],
            Error c)
    | OK =>
      match commit_clbk with
      | None => None
      | Some cb =>
        let tr := [EvReleaseCommitCallback; EvLock; EvReserve entry_batch OK; EvUnlock;
                   EvAppend entry_batch cb] in
        match append_st with
        | Error c => Some (e, r1, tr, Error c)
        | OK => Some (e, r1, tr, OK)
        end
      end
    end
  end.

(** [LocalConsensus::PersistQuorum].  [flush_st] is the status returned by
    [cmeta_->Flush()]. *)
Definition PersistQuorum (e : LocalConsensus) (quorum : QuorumPB) (flush_st : Status)
    : option (LocalConsensus * Trace * Status) :=
  match VerifyQuorum quorum with
  | Error c => Some (e, [EvVerify quorum], Error c)
  | OK =>
    (* CHECK_LT(committed seqno, quorum.seqno()) under lock_ *)
    if seqno (committed_quorum e) <? seqno quorum
    then Some (set_committed e quorum, [EvVerify quorum; EvLock; EvFlush; EvUnlock], flush_st)
    else None
  end.

(** [LocalConsensus::Quorum] *)
Definition Quorum (e : LocalConsensus) : QuorumPB := committed_quorum e.

(** [LocalConsensus::Update] and [LocalConsensus::RequestVote] *)
Definition Update (e : LocalConsensus) : Status := Error NotSupported.
Definition RequestVote (e : LocalConsensus) : Status := Error NotSupported.

(** [LocalConsensus::role]: [peers().begin()->role()]; dereferencing
    [begin()] of an empty peer list is undefined, modelled as [None]. *)
Definition role (e : LocalConsensus) : option Role :=
  match peers (committed_quorum e) with
  | p :: _ => Some (role p)
  | [] => None
  end.

(** [LocalConsensus::LocalConsensus]: [next_op_id_index_(-1)],
    [state_(kInitializing)], and [CHECK(cmeta_)] on the metadata object,
    represented here by the committed quorum it holds. *)
Definition create (peer_uuid : string) (cmeta : option QuorumPB) : option LocalConsensus :=
  match cmeta with
  | None => None
  | Some q => Some (mkEngine peer_uuid (-1) kInitializing q)
  end.

End Engine.

(** ** Concurrent Replicate calls

    Any number of threads run [LocalConsensus::Replicate] on a started
    engine.  Each thread's code is split into the steps it performs on
    shared state; [lock_] is a spinlock that a thread acquires only when it
    is free, and the [lock_guard]'s scope releases it after [Reserve],
    whatever Reserve returned.  Thread-local work (setting the term,
    [ByteSize()]) is a step of its own that touches no shared state. *)

Module Interleaving.

(** Where a thread is in [Replicate]. *)
Inductive pc :=
  | Ready                  (* call issued *)
  | Pre                    (* term set, ByteSize cached; waiting for lock_ *)
  | Locked                 (* holds lock_ *)
  | Assigned (i : Z)       (* holds lock_, cur_op_id->set_index(i) done *)
  | SlotHeld (i : Z)       (* holds lock_, Reserve succeeded *)
  | FailHeld               (* holds lock_, Reserve failed (RETURN_NOT_OK) *)
  | Appending (i : Z)      (* lock_ released, about to AsyncAppend *)
  | Finished.              (* returned *)

Record gstate := mkG {
  g_lock : option nat;           (* owner of lock_ *)
  g_next : Z;                    (* next_op_id_index_ *)
  g_assigned : list Z;           (* indices handed out, in assignment order *)
  g_reserved : list Z;           (* indices of the batches reserved in the log, in order *)
  g_pc : nat -> pc
}.

Definition upd (f : nat -> pc) (t : nat) (p : pc) : nat -> pc :=
  fun u => if Nat.eqb u t then p else f u.

Definition set_pc (g : gstate) (t : nat) (p : pc) : gstate :=
  mkG (g_lock g) (g_next g) (g_assigned g) (g_reserved g) (upd (g_pc g) t p).

Definition acquire (g : gstate) (t : nat) : gstate :=
  mkG (Some t) (g_next g) (g_assigned g) (g_reserved g) (upd (g_pc g) t Locked).

(** [cur_op_id->set_index(next_op_id_index_++)] *)
Definition assign (g : gstate) (t : nat) : gstate :=
  mkG (g_lock g) (g_next g + 1) (g_assigned g ++ [g_next g]) (g_reserved g)
      (upd (g_pc g) t (Assigned (g_next g))).

(** [log_->Reserve] succeeding for the batch holding index [i] *)
Definition reserve (g : gstate) (t : nat) (i : Z) : gstate :=
  mkG (g_lock g) (g_next g) (g_assigned g) (g_reserved g ++ [i]) (upd (g_pc g) t (SlotHeld i)).

Definition release (g : gstate) (t : nat) (p : pc) : gstate :=
  mkG None (g_next g) (g_assigned g) (g_reserved g) (upd (g_pc g) t p).

Inductive step : gstate -> gstate -> Prop :=
  | s_pre g t : g_pc g t = Ready -> step g (set_pc g t Pre)
  | s_lock g t : g_pc g t = Pre -> g_lock g = None -> step g (acquire g t)
  | s_assign g t : g_pc g t = Locked -> step g (assign g t)
  | s_reserve_ok g t i : g_pc g t = Assigned i -> step g (reserve g t i)
  | s_reserve_fail g t i : g_pc g t = Assigned i -> step g (set_pc g t FailHeld)
  | s_unlock_ok g t i : g_pc g t = SlotHeld i -> step g (release g t (Appending i))
  | s_unlock_fail g t : g_pc g t = FailHeld -> step g (release g t Finished)
  | s_append g t i : g_pc g t = Appending i -> step g (set_pc g t Finished).

(** A started engine whose counter is [n0]; every thread has issued its call. *)
Definition init (n0 : Z) : gstate := mkG None n0 [] [] (fun _ => Ready).

Inductive reachable (n0 : Z) : gstate -> Prop :=
  | r_init : reachable n0 (init n0)
  | r_step g g' : reachable n0 g -> step g g' -> reachable n0 g'.

(** Order-preserving sublist. *)
Inductive subseq : list Z -> list Z -> Prop :=
  | sub_nil l : subseq [] l
  | sub_take x l1 l2 : subseq l1 l2 -> subseq (x :: l1) (x :: l2)
  | sub_skip x l1 l2 : subseq l1 l2 -> subseq l1 (x :: l2).

Definition holds_lock (p : pc) : bool :=
  match p with Locked | Assigned _ | SlotHeld _ | FailHeld => true | _ => false end.

Definition inv (g : gstate) : Prop :=
  (forall t, holds_lock (g_pc g t) = true <-> g_lock g = Some t) /\
  StronglySorted Z.lt (g_assigned g) /\
  Forall (fun x => x < g_next g) (g_assigned g) /\
  subseq (g_reserved g) (g_assigned g) /\
  (forall t i, g_pc g t = Assigned i ->
     exists A, g_assigned g = A ++ [i] /\ subseq (g_reserved g) A).

(** [start], [start + 1], ..., [start + n - 1] *)
Fixpoint zseq (start : Z) (n : nat) : list Z :=
  match n with
  | O => []
  | S n' => start :: zseq (start + 1) n'
  end.

End Interleaving.

(** ** Concrete inputs *)

Module Examples.
Import Interleaving.

Definition self_peer : QuorumPeerPB := mkPeer (Some "self"%string) FOLLOWER.
Definition local_quorum : QuorumPB := mkQuorum [self_peer] 5 true.
Definition nonlocal_quorum : QuorumPB := mkQuorum [self_peer] 5 false.
Definition empty_quorum : QuorumPB := mkQuorum [] 6 true.
Definition next_quorum : QuorumPB := mkQuorum [mkPeer (Some "self"%string) LEADER] 6 true.
(** A committed quorum whose first peer is not this node. *)
Definition other_quorum : QuorumPB := mkQuorum [mkPeer (Some "other"%string) LEADER] 5 true.

Definition fresh_engine : LocalConsensus := mkEngine "self" (-1) kInitializing local_quorum.
Definition fresh_nonlocal_engine : LocalConsensus :=
  mkEngine "self" (-1) kInitializing nonlocal_quorum.
Definition running_engine : LocalConsensus := mkEngine "self" 10 kRunning local_quorum.
Definition other_engine : LocalConsensus := mkEngine "self" 10 kRunning other_quorum.

Definition boot9 : ConsensusBootstrapInfo := mkBootInfo (mkOpId 0 9).

Definition round1 : ConsensusRound :=
  mkRound (mkOp None false 1) (Some (mkOp None true 2)) 100%nat (Some 200%nat).

(** Two threads replicate from index 10; thread 1 finishes its prelude
    first, thread 0 gets the lock first. *)
Definition two_thread_run : gstate :=
  release (reserve (assign (acquire
    (release (reserve (assign (acquire
       (set_pc (set_pc (init 10) 1 Pre) 0 Pre) 0) 0) 0 10) 0 (Appending 10))
    1) 1) 1 11) 1 (Appending 11).

(** One thread inside the critical section. *)
Definition crit_run : gstate := acquire (set_pc (init 0) 3 Pre) 3.

(** One thread whose Reserve fails. *)
Definition fail_run : gstate :=
  release (set_pc (assign (acquire (set_pc (init 7) 0 Pre) 0) 0) 0 FailHeld) 0 Finished.

End Examples.

(** * Proofs *)

(** ** The interleaving model *)

Section InterleavingFacts.
Import Interleaving.

Lemma upd_eq f t p : upd f t p t = p.
Proof. unfold upd. now rewrite Nat.eqb_refl. Qed.

Lemma upd_neq f t u p : u <> t -> upd f t p u = f u.
Proof. intros H. unfold upd. destruct (Nat.eqb_spec u t); congruence. Qed.

Lemma subseq_app_r l1 l2 x : subseq l1 l2 -> subseq l1 (l2 ++ [x]).
Proof. induction 1; simpl; constructor; auto. Qed.

Lemma subseq_single_snoc l x : subseq [x] (l ++ [x]).
Proof.
  induction l as [|y l IH]; simpl.
  - constructor. constructor.
  - now constructor.
Qed.

Lemma subseq_snoc l1 l2 x : subseq l1 l2 -> subseq (l1 ++ [x]) (l2 ++ [x]).
Proof.
  induction 1; simpl.
  - apply subseq_single_snoc.
  - now constructor.
  - now constructor.
Qed.

Lemma subseq_Forall (P : Z -> Prop) l1 l2 : subseq l1 l2 -> Forall P l2 -> Forall P l1.
Proof.
  induction 1; intros HF; auto.
  - inversion HF; subst. constructor; auto.
  - inversion HF; subst. auto.
Qed.

Lemma subseq_sorted l1 l2 :
  subseq l1 l2 -> StronglySorted Z.lt l2 -> StronglySorted Z.lt l1.
Proof.
  induction 1; intros HS.
  - constructor.
  - apply StronglySorted_inv in HS as [HS HF].
    constructor; auto. eapply subseq_Forall; eauto.
  - apply StronglySorted_inv in HS as [HS _]. auto.
Qed.

Lemma sorted_snoc l x :
  StronglySorted Z.lt l -> Forall (fun y => y < x) l -> StronglySorted Z.lt (l ++ [x]).
Proof.
  induction l as [|y l IH]; intros HS HF; simpl.
  - repeat constructor.
  - apply StronglySorted_inv in HS as [HS HFy]. inversion HF; subst.
    constructor; auto.
    apply Forall_app. split; auto.
Qed.

Lemma lock_iff_upd f L t p :
  (forall u, holds_lock (f u) = true <-> L = Some u) ->
  holds_lock (f t) = holds_lock p ->
  forall u, holds_lock (upd f t p u) = true <-> L = Some u.
Proof.
  intros H Ht u. unfold upd. destruct (Nat.eqb_spec u t) as [->|]; [rewrite <- Ht|]; auto.
Qed.

Lemma inv_init n0 : inv (init n0).
Proof.
  repeat split; simpl; try constructor; intros; discriminate.
Qed.

(** At most one thread is inside the critical section. *)
Lemma lock_unique g t u :
  inv g -> holds_lock (g_pc g t) = true -> holds_lock (g_pc g u) = true -> t = u.
Proof.
  intros [Hl _] Ht Hu. apply Hl in Ht. apply Hl in Hu. congruence.
Qed.

Lemma inv_step g g' : inv g -> step g g' -> inv g'.
Proof.
  intros Hinv Hs. pose proof Hinv as (Hl & Hsort & Hlt & Hsub & Hasg).
  destruct Hs as [g t Ht|g t Ht Hfree|g t Ht|g t i Ht|g t i Ht|g t i Ht|g t Ht|g t i Ht];
    unfold inv; simpl.
  - (* thread-local prelude *)
    repeat split; auto.
    + apply lock_iff_upd; [exact Hl| now rewrite Ht].
    + apply lock_iff_upd; [exact Hl| now rewrite Ht].
    + intros u j Hu. destruct (Nat.eqb_spec u t) as [->|Hne].
      * rewrite upd_eq in Hu. discriminate.
      * rewrite upd_neq in Hu by exact Hne. eauto.
  - (* acquire lock_ *)
    split; [intros u; split; intros Hu|repeat split; auto].
    + unfold upd in Hu. destruct (Nat.eqb_spec u t) as [Heq|Hne]; [now subst u|].
      apply Hl in Hu. congruence.
    + injection Hu as <-. now rewrite upd_eq.
    + intros u j Hu. destruct (Nat.eqb_spec u t) as [->|Hne].
      * rewrite upd_eq in Hu. discriminate.
      * rewrite upd_neq in Hu by exact Hne.
        assert (holds_lock (g_pc g u) = true) as Hh by now rewrite Hu.
        apply Hl in Hh. congruence.
  - (* assign the index *)
    repeat split.
    + apply lock_iff_upd; [exact Hl| now rewrite Ht].
    + apply lock_iff_upd; [exact Hl| now rewrite Ht].
    + apply sorted_snoc; auto.
    + apply Forall_app. split.
      * eapply Forall_impl; [|exact Hlt]. simpl. intros; lia.
      * constructor; [lia|constructor].
    + now apply subseq_app_r.
    + intros u j Hu. destruct (Nat.eqb_spec u t) as [->|Hne].
      * rewrite upd_eq in Hu. injection Hu as <-. eauto.
      * rewrite upd_neq in Hu by exact Hne.
        exfalso. apply Hne. eapply lock_unique; eauto; [now rewrite Hu | now rewrite Ht].
  - (* Reserve succeeds *)
    destruct (Hasg t i Ht) as (A & HA & HsubA).
    repeat split; auto.
    + apply lock_iff_upd; [exact Hl| now rewrite Ht].
    + apply lock_iff_upd; [exact Hl| now rewrite Ht].
    + rewrite HA. now apply subseq_snoc.
    + intros u j Hu. destruct (Nat.eqb_spec u t) as [->|Hne].
      * rewrite upd_eq in Hu. discriminate.
      * rewrite upd_neq in Hu by exact Hne.
        exfalso. apply Hne. eapply lock_unique; eauto; [now rewrite Hu | now rewrite Ht].
  - (* Reserve fails *)
    repeat split; auto.
    + apply lock_iff_upd; [exact Hl| now rewrite Ht].
    + apply lock_iff_upd; [exact Hl| now rewrite Ht].
    + intros u j Hu. destruct (Nat.eqb_spec u t) as [->|Hne].
      * rewrite upd_eq in Hu. discriminate.
      * rewrite upd_neq in Hu by exact Hne. eauto.
  - (* release lock_ after a reservation *)
    assert (g_lock g = Some t) as Hown by (apply Hl; now rewrite Ht).
    split; [intros u; split; intros Hu|repeat split; auto].
    + unfold upd in Hu. destruct (Nat.eqb_spec u t) as [Heq|Hne]; [subst u; discriminate|].
      apply Hl in Hu. congruence.
    + discriminate.
    + intros u j Hu. destruct (Nat.eqb_spec u t) as [->|Hne].
      * rewrite upd_eq in Hu. discriminate.
      * rewrite upd_neq in Hu by exact Hne. eauto.
  - (* release lock_ after a failed reservation *)
    assert (g_lock g = Some t) as Hown by (apply Hl; now rewrite Ht).
    split; [intros u; split; intros Hu|repeat split; auto].
    + unfold upd in Hu. destruct (Nat.eqb_spec u t) as [Heq|Hne]; [subst u; discriminate|].
      apply Hl in Hu. congruence.
    + discriminate.
    + intros u j Hu. destruct (Nat.eqb_spec u t) as [->|Hne].
      * rewrite upd_eq in Hu. discriminate.
      * rewrite upd_neq in Hu by exact Hne. eauto.
  - (* AsyncAppend *)
    repeat split; auto.
    + apply lock_iff_upd; [exact Hl| now rewrite Ht].
    + apply lock_iff_upd; [exact Hl| now rewrite Ht].
    + intros u j Hu. destruct (Nat.eqb_spec u t) as [->|Hne].
      * rewrite upd_eq in Hu. discriminate.
      * rewrite upd_neq in Hu by exact Hne. eauto.
Qed.

Lemma inv_reachable n0 g : reachable n0 g -> inv g.
Proof.
  induction 1; [apply inv_init | eapply inv_step; eauto].
Qed.

End InterleavingFacts.

Lemma sorted_NoDup l : StronglySorted Z.lt l -> NoDup l.
Proof.
  induction 1 as [|x l HS IH HF]; constructor; auto.
  intros Hin. rewrite Forall_forall in HF. specialize (HF x Hin). lia.
Qed.

(** ** C1 *)

(** C1: however the Replicate threads interleave, the indices handed out
    form a strictly increasing sequence without duplicates, and the log
    reservations are made in exactly the order the indices were assigned
    (the reserved indices are an order-preserving sublist of the assigned
    ones, hence strictly increasing too). *)
Theorem replicate_interleaving_ordered (n0 : Z) (g : Interleaving.gstate)
    (Hreach : Interleaving.reachable n0 g) :
  StronglySorted Z.lt (Interleaving.g_assigned g) /\
  NoDup (Interleaving.g_assigned g) /\
  Interleaving.subseq (Interleaving.g_reserved g) (Interleaving.g_assigned g) /\
  StronglySorted Z.lt (Interleaving.g_reserved g).
Proof.
  destruct (inv_reachable n0 g Hreach) as (_ & Hsort & _ & Hsub & _).
  repeat split; auto using sorted_NoDup.
  eapply subseq_sorted; eauto.
Qed.

Lemma replicate_interleaving_ordered_witness :
  Interleaving.reachable 10 Examples.two_thread_run /\
  Interleaving.g_assigned Examples.two_thread_run = [10; 11] /\
  Interleaving.g_reserved Examples.two_thread_run = [10; 11] /\
  StronglySorted Z.lt (Interleaving.g_assigned Examples.two_thread_run) /\
  NoDup (Interleaving.g_assigned Examples.two_thread_run) /\
  Interleaving.subseq (Interleaving.g_reserved Examples.two_thread_run)
                      (Interleaving.g_assigned Examples.two_thread_run) /\
  StronglySorted Z.lt (Interleaving.g_reserved Examples.two_thread_run).
Proof.
  assert (Interleaving.reachable 10 Examples.two_thread_run) as H.
  { unfold Examples.two_thread_run.
    eapply Interleaving.r_step; [|eapply Interleaving.s_unlock_ok; reflexivity].
    eapply Interleaving.r_step; [|eapply Interleaving.s_reserve_ok; reflexivity].
    eapply Interleaving.r_step; [|eapply Interleaving.s_assign; reflexivity].
    eapply Interleaving.r_step; [|eapply Interleaving.s_lock; reflexivity].
    eapply Interleaving.r_step; [|eapply Interleaving.s_unlock_ok; reflexivity].
    eapply Interleaving.r_step; [|eapply Interleaving.s_reserve_ok; reflexivity].
    eapply Interleaving.r_step; [|eapply Interleaving.s_assign; reflexivity].
    eapply Interleaving.r_step; [|eapply Interleaving.s_lock; reflexivity].
    eapply Interleaving.r_step; [|eapply Interleaving.s_pre; reflexivity].
    eapply Interleaving.r_step; [|eapply Interleaving.s_pre; reflexivity].
    apply Interleaving.r_init. }
  split; [exact H|]. split; [reflexivity|]. split; [reflexivity|].
  exact (replicate_interleaving_ordered 10 Examples.two_thread_run H).
Defined.

(** ** C2 *)

(** C2: a successful Replicate on a started engine gives the round's
    REPLICATE op the OpId (0, next_op_id_index_ before the call), bumps
    next_op_id_index_ by exactly one, and does the index assignment and the
    log-slot reservation between taking and releasing lock_, with nothing
    else inside that critical section. *)
Theorem replicate_assigns_next_op_id (e : LocalConsensus) (r : ConsensusRound)
    (reserve_st append_st : Status) e' r' tr
    (Hok : Engine.Replicate e r reserve_st append_st = Some (e', r', tr, OK)) :
  op_id (replicate_op r') = Some (mkOpId 0 (next_op_id_index_ e)) /\
  next_op_id_index_ e' = next_op_id_index_ e + 1 /\
  tr = [EvLock; EvAssign (next_op_id_index_ e); EvReserve [replicate_op r'] OK; EvUnlock;
        EvAppend [replicate_op r'] (replicate_callback r)].
Proof.
  unfold Engine.Replicate in Hok.
  destruct (state_rank (state_ e) <? state_rank kConfiguring); [discriminate|].
  destruct reserve_st; [|discriminate].
  destruct append_st; [|discriminate].
  injection Hok as <- <- <-. simpl. auto.
Qed.

Lemma replicate_assigns_next_op_id_witness :
  exists e' r' tr,
    Engine.Replicate Examples.running_engine Examples.round1 OK OK = Some (e', r', tr, OK) /\
    op_id (replicate_op r') = Some (mkOpId 0 10) /\ next_op_id_index_ e' = 11.
Proof.
  eexists; eexists; eexists. split; [reflexivity|].
  destruct (replicate_assigns_next_op_id Examples.running_engine Examples.round1 OK OK
              _ _ _ eq_refl) as (H1 & H2 & _).
  split; [exact H1 | exact H2].
Defined.

(** ** C3 *)

(** C3: PersistQuorum either leaves the engine untouched and returns the
    structural-validation error, or installs a quorum whose seqno is
    strictly greater than the committed one; with a seqno not above the
    committed one it aborts or returns the validation error. *)
Theorem persist_quorum_seqno_monotone (e : LocalConsensus) (q : QuorumPB) (flush_st : Status) :
  (forall e' tr st, Engine.PersistQuorum e q flush_st = Some (e', tr, st) ->
     (e' = e /\ st = VerifyQuorum q /\ st <> OK) \/
     (committed_quorum e' = q /\ seqno (committed_quorum e) < seqno q)) /\
  (seqno q <= seqno (committed_quorum e) ->
     Engine.PersistQuorum e q flush_st = None \/
     (Engine.PersistQuorum e q flush_st = Some (e, [EvVerify q], VerifyQuorum q) /\
      VerifyQuorum q <> OK)).
Proof.
  unfold Engine.PersistQuorum.
  destruct (VerifyQuorum q) as [|c] eqn:Hv.
  - destruct (Z.ltb_spec (seqno (committed_quorum e)) (seqno q)) as [Hlt|Hge].
    + split.
      * intros e' tr st H. injection H as <- _ _. right. simpl. auto.
      * intros Hle. lia.
    + split; [discriminate|]. intros _. left. reflexivity.
  - split.
    + intros e' tr st H. injection H as <- _ <-. left. repeat split. discriminate.
    + intros _. right. split; [reflexivity|discriminate].
Qed.

(** ** C4 *)

(** C4 (as claimed, refuted): a committed quorum whose locality flag is
    false is malformed, yet Start does not return InvalidQuorum for it: the
    CHECK on [local()] aborts the process first. *)
Lemma start_nonlocal_quorum_aborts :
  VerifyQuorum (committed_quorum Examples.fresh_nonlocal_engine) = Error InvalidQuorum /\
  Engine.Start Examples.fresh_nonlocal_engine Examples.boot9 OK = None /\
  ~ (exists e' tr, Engine.Start Examples.fresh_nonlocal_engine Examples.boot9 OK
                   = Some (e', tr, Error InvalidQuorum)).
Proof.
  split; [reflexivity|]. split; [reflexivity|].
  intros (e' & tr & H). discriminate H.
Qed.

(** C4 (amended): on an engine in kInitializing, a committed quorum with
    the locality flag false makes Start abort fatally; a local quorum that
    fails structural validation makes Start return that validation error
    to the caller, with the engine left unchanged and the lock released. *)
Theorem start_invalid_quorum (e : LocalConsensus) (info : ConsensusBootstrapInfo)
    (submit_st : Status) (Hinit : state_ e = kInitializing) :
  (local (committed_quorum e) = false -> Engine.Start e info submit_st = None) /\
  (forall c, local (committed_quorum e) = true -> VerifyQuorum (committed_quorum e) = Error c ->
     Engine.Start e info submit_st =
       Some (e, [EvLock; EvVerify (committed_quorum e); EvUnlock], Error c)).
Proof.
  unfold Engine.Start. rewrite Hinit. split.
  - intros Hl. now rewrite Hl.
  - intros c Hl Hv. now rewrite Hl, Hv.
Qed.

Lemma start_invalid_quorum_witness :
  Engine.Start Examples.fresh_nonlocal_engine Examples.boot9 OK = None /\
  Engine.Start (mkEngine "self" (-1) kInitializing Examples.empty_quorum) Examples.boot9 OK
  = Some (mkEngine "self" (-1) kInitializing Examples.empty_quorum,
          [EvLock; EvVerify Examples.empty_quorum; EvUnlock], Error InvalidQuorum).
Proof.
  split.
  - apply (start_invalid_quorum Examples.fresh_nonlocal_engine Examples.boot9 OK eq_refl).
    reflexivity.
  - apply (start_invalid_quorum (mkEngine "self" (-1) kInitializing Examples.empty_quorum)
             Examples.boot9 OK eq_refl); reflexivity.
Defined.

(** ** C5 *)

(** C5: a successful Start sets next_op_id_index_ to last_id.index + 1,
    is in kRunning when it submits the config change, and submits the
    committed quorum with its (single) peer's role set to LEADER and the
    seqno incremented; the committed quorum itself is not changed. *)
Theorem start_success (e : LocalConsensus) (info : ConsensusBootstrapInfo) (submit_st : Status)
    e' tr (Hok : Engine.Start e info submit_st = Some (e', tr, OK)) :
  let q := committed_quorum e in
  exists p,
    peers q = [p] /\ local q = true /\ state_ e = kInitializing /\
    next_op_id_index_ e' = index (last_id info) + 1 /\
    state_ e' = kRunning /\ committed_quorum e' = q /\
    tr = [EvLock; EvVerify q;
          EvSubmit (mkQuorum [mkPeer (permanent_uuid p) LEADER] (seqno q + 1) (local q)) kRunning;
          EvUnlock].
Proof.
  unfold Engine.Start in Hok. simpl.
  destruct (state_ e) eqn:Hs; try discriminate.
  destruct (local (committed_quorum e)) eqn:Hl; [|discriminate]. simpl in Hok.
  destruct (VerifyQuorum (committed_quorum e)) eqn:Hv; [|discriminate].
  unfold VerifyQuorum in Hv. rewrite Hl in Hv. simpl in Hv.
  destruct (peers (committed_quorum e)) as [|p [|p' ps]] eqn:Hp; try discriminate.
  destruct submit_st; [|discriminate].
  injection Hok as <- <-. exists p. simpl. repeat split; auto.
Qed.

Lemma start_success_witness :
  exists e' tr, Engine.Start Examples.fresh_engine Examples.boot9 OK = Some (e', tr, OK) /\
    next_op_id_index_ e' = 10 /\ state_ e' = kRunning.
Proof.
  eexists; eexists. split; [reflexivity|].
  destruct (start_success Examples.fresh_engine Examples.boot9 OK _ _ eq_refl)
    as (p & _ & _ & _ & Hn & Hs & _).
  split; [exact Hn | exact Hs].
Defined.

(** ** C6 *)

(** C6: whatever the log answers, once Commit returns the round's commit
    callback slot is empty; the callback was released before any other
    action (in particular before lock_ and any log call), and the only
    callback handed to AsyncAppend is the one released from the round. *)
Theorem commit_releases_callback (e : LocalConsensus) (r : ConsensusRound)
    (reserve_st append_st : Status) e' r' tr st
    (Hret : Engine.Commit e r reserve_st append_st = Some (e', r', tr, st)) :
  commit_callback r' = None /\
  (exists rest, tr = EvReleaseCommitCallback :: rest /\
                ~ In EvReleaseCommitCallback rest) /\
  (forall b cb, In (EvAppend b cb) tr -> commit_callback r = Some cb).
Proof.
  unfold Engine.Commit, release_commit_callback in Hret.
  destruct (commit_op r) as [cop|]; [|discriminate].
  destruct (has_commit cop); simpl in Hret; [|discriminate].
  destruct reserve_st.
  - destruct (commit_callback r) as [cb0|] eqn:Hcb; [|discriminate].
    destruct append_st; injection Hret as _ <- <- _; simpl;
      (split; [reflexivity|]); (split; [eexists; split; [reflexivity|]; simpl; intuition discriminate|]);
      intros b cb Hin; simpl in Hin; intuition congruence.
  - injection Hret as _ <- <- _; simpl.
    split; [reflexivity|].
    split; [eexists; split; [reflexivity|]; simpl; intuition discriminate|].
    intros b cb Hin; simpl in Hin; intuition discriminate.
Qed.

Lemma commit_releases_callback_witness :
  exists e' r' tr,
    Engine.Commit Examples.running_engine Examples.round1 (Error IOError) OK
      = Some (e', r', tr, Error IOError) /\
    commit_callback r' = None.
Proof.
  eexists; eexists; eexists. split; [reflexivity|].
  destruct (commit_releases_callback Examples.running_engine Examples.round1 (Error IOError) OK
              _ _ _ _ eq_refl) as (H & _).
  exact H.
Defined.

(** ** C7 *)

(** C7: PersistQuorum with a quorum that fails structural validation
    returns InvalidQuorum and leaves the engine, hence the committed
    quorum, unchanged; validation is its first action, and on this path
    lock_ is never taken. *)
Theorem persist_quorum_rejects_invalid (e : LocalConsensus) (q : QuorumPB) (flush_st : Status)
    (Hbad : VerifyQuorum q <> OK) :
  Engine.PersistQuorum e q flush_st = Some (e, [EvVerify q], Error InvalidQuorum).
Proof.
  unfold Engine.PersistQuorum.
  destruct (VerifyQuorum q) as [|c] eqn:Hv; [congruence|].
  unfold VerifyQuorum in Hv.
  destruct (negb (local q)); [now injection Hv as <-|].
  destruct (negb (Nat.eqb (List.length (peers q)) 1)); [now injection Hv as <-|].
  destruct (forallb _ (peers q)); [discriminate|now injection Hv as <-].
Qed.

Lemma persist_quorum_rejects_invalid_witness :
  VerifyQuorum Examples.empty_quorum <> OK /\
  Engine.PersistQuorum Examples.running_engine Examples.empty_quorum OK
  = Some (Examples.running_engine, [EvVerify Examples.empty_quorum], Error InvalidQuorum).
Proof.
  assert (VerifyQuorum Examples.empty_quorum <> OK) as H by discriminate.
  split; [exact H|].
  apply (persist_quorum_rejects_invalid Examples.running_engine Examples.empty_quorum OK H).
Defined.

(** ** C8 *)

(** C8: when Reserve fails, Replicate returns that error, no slot is
    reserved, and next_op_id_index_ stays incremented: the next Replicate
    is given the following index, so the failed call's index is skipped. *)
Theorem replicate_reserve_failure_skips_index (e : LocalConsensus) (r : ConsensusRound)
    (c : ErrorCode) (append_st : Status) e' r' tr st
    (Hret : Engine.Replicate e r (Error c) append_st = Some (e', r', tr, st)) :
  st = Error c /\
  next_op_id_index_ e' = next_op_id_index_ e + 1 /\
  (forall b, ~ In (EvReserve b OK) tr) /\
  (forall r2 rs2 as2 e'' r2' tr2 st2,
     Engine.Replicate e' r2 rs2 as2 = Some (e'', r2', tr2, st2) ->
     op_id (replicate_op r2') = Some (mkOpId 0 (next_op_id_index_ e + 1))).
Proof.
  unfold Engine.Replicate in Hret.
  destruct (state_ e) eqn:Hst; simpl in Hret; [discriminate| |].
  all: injection Hret as <- <- <- <-.
  all: split; [reflexivity|]. all: split; [reflexivity|].
  all: split; [intros b Hin; simpl in Hin; intuition discriminate|].
  all: intros r2 rs2 as2 e'' r2' tr2 st2 H2;
    unfold Engine.Replicate in H2; simpl in H2; rewrite Hst in H2; simpl in H2;
    destruct rs2; [destruct as2|]; injection H2 as _ <- _ _; reflexivity.
Qed.

Lemma replicate_reserve_failure_skips_index_witness :
  exists e' r' tr,
    Engine.Replicate Examples.running_engine Examples.round1 (Error IOError) OK
      = Some (e', r', tr, Error IOError) /\
    next_op_id_index_ e' = 11.
Proof.
  eexists; eexists; eexists. split; [reflexivity|].
  destruct (replicate_reserve_failure_skips_index Examples.running_engine Examples.round1
              IOError OK _ _ _ _ eq_refl) as (_ & H & _).
  exact H.
Defined.

(** ** C9 *)

(** C9: role() is the role of the first peer of the committed quorum; it
    does not depend on this node's own uuid. *)
Theorem role_is_first_peer (e : LocalConsensus) (p : QuorumPeerPB) (ps : list QuorumPeerPB)
    (Hpeers : peers (committed_quorum e) = p :: ps) :
  Engine.role e = Some (role p) /\
  (forall uuid, Engine.role (mkEngine uuid (next_op_id_index_ e) (state_ e) (committed_quorum e))
                = Some (role p)).
Proof.
  unfold Engine.role. simpl. rewrite Hpeers. auto.
Qed.

Lemma role_is_first_peer_witness :
  permanent_uuid (mkPeer (Some "other"%string) LEADER) <> Some (peer_uuid_ Examples.other_engine) /\
  Engine.role Examples.other_engine = Some LEADER.
Proof.
  split; [discriminate|].
  apply (role_is_first_peer Examples.other_engine (mkPeer (Some "other"%string) LEADER) []
           eq_refl).
Defined.

(** ** C10 *)

(** C10: when the Transaction Factory rejects the config change, Start
    returns its error but keeps state_ = kRunning and the new
    next_op_id_index_, so Replicate no longer trips its DCHECK. *)
Theorem start_submit_failure_not_rolled_back (e : LocalConsensus)
    (info : ConsensusBootstrapInfo) (c : ErrorCode)
    (Hinit : state_ e = kInitializing) (Hlocal : local (committed_quorum e) = true)
    (Hvalid : VerifyQuorum (committed_quorum e) = OK) :
  exists e' tr,
    Engine.Start e info (Error c) = Some (e', tr, Error c) /\
    state_ e' = kRunning /\
    next_op_id_index_ e' = index (last_id info) + 1 /\
    (forall r rs as_, Engine.Replicate e' r rs as_ <> None) /\
    (forall r rs as_ cop cb, commit_op r = Some cop -> has_commit cop = true ->
       commit_callback r = Some cb -> Engine.Commit e' r rs as_ <> None).
Proof.
  unfold Engine.Start. rewrite Hinit, Hlocal, Hvalid. simpl.
  eexists; eexists. split; [reflexivity|]. simpl.
  split; [reflexivity|]. split; [reflexivity|]. split.
  - intros r rs as_. unfold Engine.Replicate. simpl.
    destruct rs; [destruct as_|]; discriminate.
  - intros r rs as_ cop cb Hc Hh Hcb. unfold Engine.Commit, release_commit_callback.
    rewrite Hc, Hh. simpl. rewrite Hcb.
    destruct rs; [destruct as_|]; discriminate.
Qed.

Lemma start_submit_failure_not_rolled_back_witness :
  exists e' tr,
    Engine.Start Examples.fresh_engine Examples.boot9 (Error (OtherError 1))
      = Some (e', tr, Error (OtherError 1)) /\ state_ e' = kRunning.
Proof.
  destruct (start_submit_failure_not_rolled_back Examples.fresh_engine Examples.boot9
              (OtherError 1) eq_refl eq_refl eq_refl) as (e' & tr & H1 & H2 & _).
  exists e', tr. split; [exact H1 | exact H2].
Defined.

(** * Further properties of the code *)

(** ** The interleaving model *)

Lemma zseq_snoc start n :
  Interleaving.zseq start (S n) = Interleaving.zseq start n ++ [start + Z.of_nat n].
Proof.
  revert start. induction n as [|n IH]; intros start.
  - simpl. now rewrite Z.add_0_r.
  - change (Interleaving.zseq start (S (S n)))
      with (start :: Interleaving.zseq (start + 1) (S n)).
    rewrite IH. simpl. do 2 f_equal. f_equal. lia.
Qed.

(** Mutual exclusion on [lock_]: in every reachable state at most one
    thread is between taking and releasing the lock, and it is the lock's
    owner. *)
Theorem interleaving_mutual_exclusion (n0 : Z) (g : Interleaving.gstate) (t u : nat)
    (Hreach : Interleaving.reachable n0 g)
    (Ht : Interleaving.holds_lock (Interleaving.g_pc g t) = true)
    (Hu : Interleaving.holds_lock (Interleaving.g_pc g u) = true) :
  t = u /\ Interleaving.g_lock g = Some t.
Proof.
  pose proof (inv_reachable n0 g Hreach) as Hinv.
  split; [eapply lock_unique; eauto|].
  destruct Hinv as [Hl _]. now apply Hl.
Qed.

Lemma interleaving_mutual_exclusion_witness :
  Interleaving.reachable 0 Examples.crit_run /\ Interleaving.g_lock Examples.crit_run = Some 3%nat.
Proof.
  assert (Interleaving.reachable 0 Examples.crit_run) as H.
  { unfold Examples.crit_run.
    eapply Interleaving.r_step; [|eapply Interleaving.s_lock; reflexivity].
    eapply Interleaving.r_step; [|eapply Interleaving.s_pre; reflexivity].
    apply Interleaving.r_init. }
  split; [exact H|].
  apply (interleaving_mutual_exclusion 0 Examples.crit_run 3 3 H eq_refl eq_refl).
Defined.

(** The indices handed out are exactly n0, n0 + 1, ..., with no gap in
    the assignment itself, and next_op_id_index_ is n0 plus the number of
    assignments made (a failed Reserve still consumes its index). *)
Theorem interleaving_indices_consecutive (n0 : Z) (g : Interleaving.gstate)
    (Hreach : Interleaving.reachable n0 g) :
  Interleaving.g_assigned g =
    Interleaving.zseq n0 (List.length (Interleaving.g_assigned g)) /\
  Interleaving.g_next g = n0 + Z.of_nat (List.length (Interleaving.g_assigned g)).
Proof.
  induction Hreach as [|g g' Hreach [Ha Hn] Hs].
  - simpl. split; [reflexivity|lia].
  - destruct Hs; simpl; auto.
    remember (Interleaving.g_assigned g) as A eqn:HA.
    rewrite length_app. simpl. rewrite Nat.add_1_r, zseq_snoc, <- Ha, <- Hn.
    split; [reflexivity|]. lia.
Qed.

Lemma interleaving_indices_consecutive_witness :
  Interleaving.reachable 7 Examples.fail_run /\ Interleaving.g_assigned Examples.fail_run = [7] /\
  Interleaving.g_reserved Examples.fail_run = [] /\ Interleaving.g_next Examples.fail_run = 8.
Proof.
  assert (Interleaving.reachable 7 Examples.fail_run) as H.
  { unfold Examples.fail_run.
    eapply Interleaving.r_step; [|eapply Interleaving.s_unlock_fail; reflexivity].
    eapply Interleaving.r_step; [|eapply Interleaving.s_reserve_fail; reflexivity].
    eapply Interleaving.r_step; [|eapply Interleaving.s_assign; reflexivity].
    eapply Interleaving.r_step; [|eapply Interleaving.s_lock; reflexivity].
    eapply Interleaving.r_step; [|eapply Interleaving.s_pre; reflexivity].
    apply Interleaving.r_init. }
  split; [exact H|]. split; [reflexivity|]. split; [reflexivity|].
  destruct (interleaving_indices_consecutive 7 Examples.fail_run H) as [_ Hn]. exact Hn.
Defined.

(** A thread that holds a reserved slot, or has released the lock and is
    about to AsyncAppend, finds its own index among the log reservations:
    nothing is appended whose slot was not reserved first. *)
Theorem interleaving_append_after_reserve (n0 : Z) (g : Interleaving.gstate)
    (Hreach : Interleaving.reachable n0 g) :
  forall t i, Interleaving.g_pc g t = Interleaving.SlotHeld i \/
              Interleaving.g_pc g t = Interleaving.Appending i ->
              In i (Interleaving.g_reserved g).
Proof.
  induction Hreach as [|g g' Hreach IH Hs].
  - intros t i [H|H]; discriminate H.
  - destruct Hs as [g t0 Ht|g t0 Ht Hfree|g t0 Ht|g t0 k Ht|g t0 k Ht|g t0 k Ht|g t0 Ht|g t0 k Ht];
      intros t i Hti; simpl in *; unfold Interleaving.upd in Hti;
      destruct (Nat.eqb_spec t t0) as [Heq|Hne];
      try (destruct Hti as [H|H]; discriminate H);
      try (now apply (IH t i)).
    + (* Reserve succeeded for t0 *)
      destruct Hti as [H|H]; [injection H as <-|discriminate H].
      apply in_or_app. right. now left.
    + apply in_or_app. left. now apply (IH t i).
    + (* release after a reservation *)
      destruct Hti as [H|H]; [discriminate H|injection H as <-].
      subst t. apply (IH t0 k). now left.
Qed.

Lemma interleaving_append_after_reserve_witness :
  Interleaving.reachable 10 Examples.two_thread_run /\
  In 11 (Interleaving.g_reserved Examples.two_thread_run).
Proof.
  assert (Interleaving.reachable 10 Examples.two_thread_run) as H.
  { unfold Examples.two_thread_run.
    eapply Interleaving.r_step; [|eapply Interleaving.s_unlock_ok; reflexivity].
    eapply Interleaving.r_step; [|eapply Interleaving.s_reserve_ok; reflexivity].
    eapply Interleaving.r_step; [|eapply Interleaving.s_assign; reflexivity].
    eapply Interleaving.r_step; [|eapply Interleaving.s_lock; reflexivity].
    eapply Interleaving.r_step; [|eapply Interleaving.s_unlock_ok; reflexivity].
    eapply Interleaving.r_step; [|eapply Interleaving.s_reserve_ok; reflexivity].
    eapply Interleaving.r_step; [|eapply Interleaving.s_assign; reflexivity].
    eapply Interleaving.r_step; [|eapply Interleaving.s_lock; reflexivity].
    eapply Interleaving.r_step; [|eapply Interleaving.s_pre; reflexivity].
    eapply Interleaving.r_step; [|eapply Interleaving.s_pre; reflexivity].
    apply Interleaving.r_init. }
  split; [exact H|].
  apply (interleaving_append_after_reserve 10 Examples.two_thread_run H 1%nat 11).
  right. reflexivity.
Defined.

(** ** Lifecycle *)

(** The constructor aborts on a null ConsensusMetadata; otherwise it builds
    an engine in kInitializing with next_op_id_index_ = -1, on which
    Replicate trips its DCHECK: no op-id is handed out before Start. *)
Theorem create_then_replicate_aborts (uuid : string) (q : QuorumPB) :
  Engine.create uuid None = None /\
  (forall e, Engine.create uuid (Some q) = Some e ->
     next_op_id_index_ e = -1 /\ state_ e = kInitializing /\ committed_quorum e = q /\
     forall r rs as_, Engine.Replicate e r rs as_ = None).
Proof.
  split; [reflexivity|].
  intros e H. injection H as <-. simpl. repeat split.
Qed.

(** After a Start that passed validation (whatever the factory answered),
    the first Replicate never aborts and assigns OpId (0, last_id.index + 1). *)
Theorem start_then_replicate (e : LocalConsensus) (info : ConsensusBootstrapInfo)
    (submit_st : Status) e1 tr st
    (Hstart : Engine.Start e info submit_st = Some (e1, tr, st))
    (Hrun : state_ e1 = kRunning) :
  forall r rs as_,
    exists e2 r2 tr2 st2,
      Engine.Replicate e1 r rs as_ = Some (e2, r2, tr2, st2) /\
      op_id (replicate_op r2) = Some (mkOpId 0 (index (last_id info) + 1)).
Proof.
  unfold Engine.Start in Hstart.
  destruct (state_ e) eqn:Hs; try discriminate.
  destruct (local (committed_quorum e)); [|discriminate]. simpl in Hstart.
  destruct (VerifyQuorum (committed_quorum e)).
  - intros r rs as_.
    destruct submit_st; injection Hstart as <- _ _;
      unfold Engine.Replicate; simpl;
      (destruct rs; [destruct as_|]); do 4 eexists; split; reflexivity.
  - injection Hstart as <- _ _. congruence.
Qed.

Lemma start_then_replicate_witness :
  exists e2 r2 tr2 st2,
    Engine.Replicate (set_state (set_next Examples.fresh_engine 10) kRunning) Examples.round1 OK OK
      = Some (e2, r2, tr2, st2) /\ op_id (replicate_op r2) = Some (mkOpId 0 10).
Proof.
  apply (start_then_replicate Examples.fresh_engine Examples.boot9 OK
           (set_state (set_next Examples.fresh_engine 10) kRunning) _ OK eq_refl eq_refl).
Defined.

(** Start either moves the engine to kRunning, after which any further
    Start aborts on its CHECK_EQ, or fails validation, returning an error
    with the engine unchanged and still in kInitializing (so Start may be
    called again). *)
Theorem start_once (e : LocalConsensus) (info : ConsensusBootstrapInfo) (submit_st : Status)
    e1 tr st (Hstart : Engine.Start e info submit_st = Some (e1, tr, st)) :
  (state_ e1 = kRunning /\ forall info' s', Engine.Start e1 info' s' = None) \/
  (e1 = e /\ st <> OK /\ state_ e1 = kInitializing).
Proof.
  unfold Engine.Start in Hstart.
  destruct (state_ e) eqn:Hs; try discriminate.
  destruct (local (committed_quorum e)); [|discriminate]. simpl in Hstart.
  destruct (VerifyQuorum (committed_quorum e)).
  - left. destruct submit_st; injection Hstart as <- _ _; simpl; split; reflexivity.
  - right. injection Hstart as <- _ <-. repeat split; [discriminate|exact Hs].
Qed.

Lemma start_once_witness :
  Engine.Start (set_state (set_next Examples.fresh_engine 10) kRunning) Examples.boot9 OK = None.
Proof.
  destruct (start_once Examples.fresh_engine Examples.boot9 OK
              (set_state (set_next Examples.fresh_engine 10) kRunning) _ OK eq_refl)
    as [[_ H]|(H & _)].
  - apply H.
  - discriminate H.
Defined.

(** ** Commit *)

(** Commit neither reads nor changes the engine: it returns the engine as
    it was, and its effect on the round, its log interactions and its
    status are the same on every engine, whatever its lifecycle state (it
    has no state check, unlike Replicate). *)
Theorem commit_engine_independent (e1 e2 : LocalConsensus) (r : ConsensusRound)
    (reserve_st append_st : Status) :
  Engine.Commit e1 r reserve_st append_st =
    match Engine.Commit e2 r reserve_st append_st with
    | Some (_, r', tr, st) => Some (e1, r', tr, st)
    | None => None
    end.
Proof.
  unfold Engine.Commit, release_commit_callback.
  destruct (commit_op r) as [cop|]; [|reflexivity].
  destruct (has_commit cop); simpl; [|reflexivity].
  destruct reserve_st; [|reflexivity].
  destruct (commit_callback r); [|reflexivity].
  destruct append_st; reflexivity.
Qed.

(** ** Replicate *)

(** On every path that returns (success, Reserve failure or AsyncAppend
    failure), Replicate stamps the round's REPLICATE op with (0, old
    next_op_id_index_) and bumps the counter by one, and changes nothing
    else: not the lifecycle state, the peer uuid, the committed quorum,
    the op's other fields, the round's commit op or its callbacks. *)
Theorem replicate_frame (e : LocalConsensus) (r : ConsensusRound)
    (reserve_st append_st : Status) e' r' tr st
    (Hret : Engine.Replicate e r reserve_st append_st = Some (e', r', tr, st)) :
  e' = set_next e (next_op_id_index_ e + 1) /\
  op_id (replicate_op r') = Some (mkOpId 0 (next_op_id_index_ e)) /\
  has_commit (replicate_op r') = has_commit (replicate_op r) /\
  payload (replicate_op r') = payload (replicate_op r) /\
  commit_op r' = commit_op r /\
  replicate_callback r' = replicate_callback r /\
  commit_callback r' = commit_callback r.
Proof.
  unfold Engine.Replicate in Hret.
  destruct (state_rank (state_ e) <? state_rank kConfiguring); [discriminate|].
  destruct reserve_st; [destruct append_st|];
    injection Hret as <- <- _ _; simpl; repeat split.
Qed.

Lemma replicate_frame_witness :
  exists e' r' tr st,
    Engine.Replicate Examples.running_engine Examples.round1 OK (Error IOError)
      = Some (e', r', tr, st) /\
    e' = set_next Examples.running_engine 11 /\ commit_callback r' = Some 200%nat.
Proof.
  do 4 eexists. split; [reflexivity|].
  destruct (replicate_frame Examples.running_engine Examples.round1 OK (Error IOError)
              _ _ _ _ eq_refl) as (He & _ & _ & _ & _ & _ & Hc).
  split; [exact He | exact Hc].
Defined.

(** When AsyncAppend refuses the batch, Replicate returns that error
    although the slot was already reserved in the log, with the lock
    released before the append was attempted. *)
Theorem replicate_append_failure (e : LocalConsensus) (r : ConsensusRound) (c : ErrorCode)
    e' r' tr st
    (Hret : Engine.Replicate e r OK (Error c) = Some (e', r', tr, st)) :
  st = Error c /\
  tr = [EvLock; EvAssign (next_op_id_index_ e); EvReserve [replicate_op r'] OK; EvUnlock;
        EvAppend [replicate_op r'] (replicate_callback r)].
Proof.
  unfold Engine.Replicate in Hret.
  destruct (state_rank (state_ e) <? state_rank kConfiguring); [discriminate|].
  injection Hret as _ <- <- <-. split; reflexivity.
Qed.

Lemma replicate_append_failure_witness :
  exists e' r' tr st,
    Engine.Replicate Examples.running_engine Examples.round1 OK (Error IOError)
      = Some (e', r', tr, st) /\ st = Error IOError.
Proof.
  do 4 eexists. split; [reflexivity|].
  destruct (replicate_append_failure Examples.running_engine Examples.round1 IOError
              _ _ _ _ eq_refl) as [Hst _].
  exact Hst.
Defined.

(** ** PersistQuorum and Quorum() *)

(** A validated quorum with a greater seqno is installed in memory and
    returned by Quorum() afterwards, whatever Flush answers: a Flush
    failure is returned to the caller but the in-memory quorum has already
    been replaced. *)
Theorem persist_quorum_readback (e : LocalConsensus) (q : QuorumPB) (flush_st : Status)
    (Hvalid : VerifyQuorum q = OK)
    (Hgt : seqno (committed_quorum e) < seqno q) :
  exists e',
    Engine.PersistQuorum e q flush_st = Some (e', [EvVerify q; EvLock; EvFlush; EvUnlock], flush_st) /\
    Engine.Quorum e' = q /\
    next_op_id_index_ e' = next_op_id_index_ e /\ state_ e' = state_ e /\
    peer_uuid_ e' = peer_uuid_ e.
Proof.
  unfold Engine.PersistQuorum. rewrite Hvalid.
  destruct (Z.ltb_spec (seqno (committed_quorum e)) (seqno q)); [|lia].
  eexists. split; [reflexivity|]. repeat split.
Qed.

Lemma persist_quorum_readback_witness :
  exists e',
    Engine.PersistQuorum Examples.running_engine Examples.next_quorum (Error IOError)
      = Some (e', [EvVerify Examples.next_quorum; EvLock; EvFlush; EvUnlock], Error IOError) /\
    Engine.Quorum e' = Examples.next_quorum.
Proof.
  destruct (persist_quorum_readback Examples.running_engine Examples.next_quorum (Error IOError)
              eq_refl ltac:(simpl; lia)) as (e' & H1 & H2 & _).
  exists e'. split; [exact H1 | exact H2].
Defined.

(** Start does not change role(): the LEADER role only exists in the
    config-change quorum it submits.  Persisting that submitted quorum
    afterwards (as the config-change transaction does) is accepted,
    whatever Flush answers, and then role() is LEADER and the committed
    seqno is one more than before.  (Validation is the spec's
    [VerifyQuorum].) *)
Theorem start_then_persist_leader (e : LocalConsensus) (info : ConsensusBootstrapInfo)
    e1 tr (Hstart : Engine.Start e info OK = Some (e1, tr, OK)) :
  exists new_quorum,
    In (EvSubmit new_quorum kRunning) tr /\
    Engine.role e1 = Engine.role e /\
    forall flush_st, exists e2,
      Engine.PersistQuorum e1 new_quorum flush_st =
        Some (e2, [EvVerify new_quorum; EvLock; EvFlush; EvUnlock], flush_st) /\
      Engine.role e2 = Some LEADER /\
      seqno (Engine.Quorum e2) = seqno (committed_quorum e) + 1.
Proof.
  unfold Engine.Start in Hstart.
  destruct (state_ e) eqn:Hs; try discriminate.
  destruct (local (committed_quorum e)) eqn:Hl; [|discriminate]. simpl in Hstart.
  destruct (VerifyQuorum (committed_quorum e)) eqn:Hv; [|discriminate].
  pose proof Hv as Hv'.
  unfold VerifyQuorum in Hv. rewrite Hl in Hv. simpl in Hv.
  destruct (peers (committed_quorum e)) as [|p [|p' ps]] eqn:Hp; try discriminate.
  simpl in Hv. destruct (permanent_uuid p) as [u|] eqn:Hu; [|discriminate].
  injection Hstart as <- <-.
  eexists. split; [simpl; right; right; left; reflexivity|].
  split; [unfold Engine.role; simpl; now rewrite Hp|].
  intros flush_st. unfold Engine.PersistQuorum, VerifyQuorum. simpl.
  rewrite Hu. simpl.
  destruct (Z.ltb_spec (seqno (committed_quorum e)) (seqno (committed_quorum e) + 1)); [|lia].
  eexists. split; [reflexivity|]. split; reflexivity.
Qed.

Lemma start_then_persist_leader_witness :
  Engine.role Examples.fresh_engine = Some FOLLOWER /\
  exists e1 tr, Engine.Start Examples.fresh_engine Examples.boot9 OK = Some (e1, tr, OK) /\
    exists q, In (EvSubmit q kRunning) tr /\ Engine.role e1 = Some FOLLOWER /\
    exists e2 tr2, Engine.PersistQuorum e1 q OK = Some (e2, tr2, OK) /\
      Engine.role e2 = Some LEADER.
Proof.
  split; [reflexivity|].
  do 2 eexists. split; [reflexivity|].
  destruct (start_then_persist_leader Examples.fresh_engine Examples.boot9 _ _ eq_refl)
    as (q & Hin & Hrole & Hp).
  exists q. split; [exact Hin|]. split; [exact Hrole|].
  destruct (Hp OK) as (e2 & H1 & H2 & _).
  exists e2. eexists. split; [exact H1 | exact H2].
Defined.
